(** * Shallow embedding of [src/main/file_py.py] (file_py)

    The embedding covers the helpers [symbolic_to_octal] and
    [human_to_bytes] and the listing/filtering functions [dir_ls] and
    [path_filter].  Python [str] values are modelled as ASCII
    [String.string]; Python unbounded [int] values as [Z]. *)

From Stdlib Require Import ZArith String Ascii List Bool Lia.
Import ListNotations.
Open Scope Z_scope.
Open Scope string_scope.

(* ------------------------------------------------------------------ *)
(** ** String helpers mirroring the Python builtins used by the code *)

Module PyStr.

(** [str.split(',')]: always at least one piece. *)
Fixpoint split_comma (s : string) : list string :=
  match s with
  | EmptyString => [EmptyString]
  | String c s' =>
      let r := split_comma s' in
      if Ascii.eqb c "," then EmptyString :: r
      else match r with
           | [] => [String c EmptyString]
           | h :: t => String c h :: t
           end
  end.

(** ASCII whitespace as recognised by [str.strip()] with no argument:
    \t \n \x0b \x0c \r \x1c \x1d \x1e \x1f and the space. *)
Definition is_space (c : ascii) : bool :=
  let n := nat_of_ascii c in
  (Nat.leb 9 n && Nat.leb n 13) || (Nat.leb 28 n && Nat.leb n 32).

Fixpoint lstrip (s : string) : string :=
  match s with
  | EmptyString => EmptyString
  | String c s' => if is_space c then lstrip s' else s
  end.

Fixpoint rstrip (s : string) : string :=
  match s with
  | EmptyString => EmptyString
  | String c s' =>
      let r := rstrip s' in
      match r with
      | EmptyString => if is_space c then EmptyString else String c EmptyString
      | _ => String c r
      end
  end.

(** [str.strip()] *)
Definition strip (s : string) : string := rstrip (lstrip s).

(** Greedy regex run [[set]*]: the longest prefix whose characters
    satisfy [f], and the remaining text. *)
Fixpoint span (f : ascii -> bool) (s : string) : string * string :=
  match s with
  | EmptyString => (EmptyString, EmptyString)
  | String c s' =>
      if f c then let (a, b) := span f s' in (String c a, b)
      else (EmptyString, s)
  end.

(** [str.startswith(c)] for a one-character prefix. *)
Definition starts_with (c : ascii) (s : string) : bool :=
  match s with
  | String c' _ => Ascii.eqb c c'
  | EmptyString => false
  end.

(** ASCII [str.upper()]. *)
Definition upper_char (c : ascii) : ascii :=
  let n := nat_of_ascii c in
  if Nat.leb 97 n && Nat.leb n 122 then ascii_of_nat (n - 32) else c.

Fixpoint upper (s : string) : string :=
  match s with
  | EmptyString => EmptyString
  | String c s' => String (upper_char c) (upper s')
  end.

End PyStr.

Import PyStr.

(* ------------------------------------------------------------------ *)
(** ** [symbolic_to_octal] *)

Module Symbolic.

(** The [stat] constants. *)
Definition S_IRUSR := 256.
Definition S_IWUSR := 128.
Definition S_IXUSR := 64.
Definition S_IRGRP := 32.
Definition S_IWGRP := 16.
Definition S_IXGRP := 8.
Definition S_IROTH := 4.
Definition S_IWOTH := 2.
Definition S_IXOTH := 1.

(** The table [perm_bits[w][p]]; [None] when [p] is not a key of
    [perm_bits[w]] (the [if p in perm_bits[w]] test).  The category [w]
    always comes from the regex group [[ugoa]*] or the default ['a']. *)
Definition perm_bits (w p : ascii) : option Z :=
  match w, p with
  | "u"%char, "r"%char => Some S_IRUSR
  | "u"%char, "w"%char => Some S_IWUSR
  | "u"%char, "x"%char => Some S_IXUSR
  | "g"%char, "r"%char => Some S_IRGRP
  | "g"%char, "w"%char => Some S_IWGRP
  | "g"%char, "x"%char => Some S_IXGRP
  | "o"%char, "r"%char => Some S_IROTH
  | "o"%char, "w"%char => Some S_IWOTH
  | "o"%char, "x"%char => Some S_IXOTH
  | "a"%char, "r"%char => Some (Z.lor S_IRUSR (Z.lor S_IRGRP S_IROTH))
  | "a"%char, "w"%char => Some (Z.lor S_IWUSR (Z.lor S_IWGRP S_IWOTH))
  | "a"%char, "x"%char => Some (Z.lor S_IXUSR (Z.lor S_IXGRP S_IXOTH))
  | _, _ => None
  end.

(** The keys of every [perm_bits[w]], in insertion order. *)
Definition perm_keys : list ascii := ["r"%char; "w"%char; "x"%char].

Definition is_who (c : ascii) : bool :=
  Ascii.eqb c "u" || Ascii.eqb c "g" || Ascii.eqb c "o" || Ascii.eqb c "a".
Definition is_action (c : ascii) : bool :=
  Ascii.eqb c "+" || Ascii.eqb c "=" || Ascii.eqb c "-".
Definition is_perm (c : ascii) : bool :=
  Ascii.eqb c "r" || Ascii.eqb c "w" || Ascii.eqb c "x".

(** [re.match(r'("who")("action")("perms")', op)] with the groups
    [[ugoa]*], [[+=-]] and [[rwx]*]: anchored at the start only, so text
    after the permission letters is not looked at. *)
Definition parse_op (op : string) : option (string * ascii * string) :=
  let (who, rest) := span is_who op in
  match rest with
  | String a rest' =>
      if is_action a then Some (who, a, fst (span is_perm rest')) else None
  | EmptyString => None
  end.

(** [for key in perm_bits[w]: perm &= ~perm_bits[w][key]] *)
Definition clear_category (w : ascii) (perm : Z) : Z :=
  fold_left (fun acc key =>
               match perm_bits w key with
               | Some b => Z.land acc (Z.lnot b)
               | None => acc
               end) perm_keys perm.

(** Body of the inner loop [for p in perms]. *)
Definition apply_perm (action w : ascii) (perm : Z) (p : ascii) : Z :=
  match perm_bits w p with
  | None => perm
  | Some b =>
      if Ascii.eqb action "+" then Z.lor perm b
      else if Ascii.eqb action "-" then Z.land perm (Z.lnot b)
      else if Ascii.eqb action "=" then
        let perm' := if negb (Ascii.eqb w "a") then clear_category w perm else perm in
        Z.lor perm' b
      else perm
  end.

(** One clause: [if not who: who = 'a'], then [for w in who: for p in perms]. *)
Definition apply_clause (perm : Z) (who : string) (action : ascii) (perms : string) : Z :=
  let who' := match who with EmptyString => "a" | _ => who end in
  fold_left (fun acc w => fold_left (apply_perm action w) (list_ascii_of_string perms) acc)
            (list_ascii_of_string who') perm.

(** The loop [for op in operations], raising [ValueError] ([None]) on the
    first clause the regex rejects. *)
Fixpoint apply_ops (perm : Z) (ops : list string) : option Z :=
  match ops with
  | [] => Some perm
  | op :: ops' =>
      match parse_op (strip op) with
      | None => None
      | Some (who, action, perms) => apply_ops (apply_clause perm who action perms) ops'
      end
  end.

Definition symbolic_to_octal (symbolic : string) : option Z :=
  apply_ops 0 (split_comma symbolic).

End Symbolic.
(* ------------------------------------------------------------------ *)
(** ** [human_to_bytes] *)

Module Size.

(** The regex class [\d], restricted to ASCII. *)
Definition is_digit (c : ascii) : bool :=
  Nat.leb 48 (nat_of_ascii c) && Nat.leb (nat_of_ascii c) 57.

Definition is_unit_letter (c : ascii) : bool :=
  Ascii.eqb c "K" || Ascii.eqb c "M" || Ascii.eqb c "G" || Ascii.eqb c "B".

(** [int(num)] for a string of ASCII digits. *)
Fixpoint int_of_digits_acc (acc : Z) (s : string) : Z :=
  match s with
  | EmptyString => acc
  | String c s' => int_of_digits_acc (10 * acc + Z.of_nat (nat_of_ascii c - 48)) s'
  end.
Definition int_of_digits (s : string) : Z := int_of_digits_acc 0 s.

(** The group [[KMGB]?B?]: an optional unit letter then an optional [B]. *)
Definition unit_group (s : string) : string :=
  match s with
  | String c s' =>
      if is_unit_letter c then
        match s' with
        | String b _ => if Ascii.eqb b "B" then String c (String b EmptyString)
                        else String c EmptyString
        | EmptyString => String c EmptyString
        end
      else if Ascii.eqb c "B" then String c EmptyString
      else EmptyString
  | EmptyString => EmptyString
  end.

(** [units.get(unit, 1)] *)
Definition units_get (unit : string) : Z :=
  if String.eqb unit "B" then 1
  else if String.eqb unit "K" then 1024
  else if String.eqb unit "KB" then 1024
  else if String.eqb unit "M" then 1024 ^ 2
  else if String.eqb unit "MB" then 1024 ^ 2
  else if String.eqb unit "G" then 1024 ^ 3
  else if String.eqb unit "GB" then 1024 ^ 3
  else 1.

(** [re.match(r"(\d+)([KMGB]?B?)", s.upper())]; [None] stands for the
    [ValueError] raised when the regex does not match. *)
Definition human_to_bytes (s : string) : option Z :=
  let u := upper s in
  let (num, rest) := span is_digit u in
  match num with
  | EmptyString => None
  | _ => Some (int_of_digits num * units_get (unit_group rest))
  end.

End Size.

(* ------------------------------------------------------------------ *)
(** ** [dir_ls] and [path_filter] *)

Module Listing.

(** A path yielded by [path.iterdir()] or [path.rglob('*')]: its
    [p.name], its [str(p)] and the answers of [p.is_file()],
    [p.is_dir()] and [p.is_symlink()] (the first two follow symlinks). *)
Record Entry := mkEntry {
  name : string;
  path_str : string;
  is_file : bool;
  is_dir : bool;
  is_symlink : bool
}.

(** What the file system says about the [path] argument of [dir_ls]:
    missing, existing but not a directory, or a directory with the
    sequences [path.iterdir()] and [path.rglob('*')] enumerate, in the
    order the operating system yields them. *)
Inductive Root :=
| RootMissing
| RootNotDir
| RootDir (iterdir : list Entry) (rglob : list Entry).

Inductive PyError :=
| FileNotFoundError
| NotADirectoryError
| RuntimeError.

Inductive Result (A : Type) :=
| Ok (x : A)
| Err (e : PyError).
Arguments Ok {A} x.
Arguments Err {A} e.

(** Outcome of one iteration of the loop over entries: [continue],
    [results.append(p)], or a raised [ValueError]. *)
Inductive Step := Skip | Keep | Raise.

(** Python truthiness of an [Optional[str]] ([if glob:]): [None] and the
    empty string are false. *)
Definition truthy (o : option string) : option string :=
  match o with
  | Some EmptyString | None => None
  | Some s => Some s
  end.

Section Matchers.

(** [Path.match(pattern)] on a path and [re.search(pattern, str(p))]
    come from the standard library; they are parameters here, given
    pattern first, then path. *)
Variable glob_match : string -> string -> bool.
Variable re_search : string -> string -> bool.

(** The chained type filter of [dir_ls]. *)
Definition type_step (type_filter : string) (p : Entry) : Step :=
  if String.eqb type_filter "any" then Keep
  else if String.eqb type_filter "file" && negb (is_file p) then Skip
  else if String.eqb type_filter "directory" && negb (is_dir p) then Skip
  else if String.eqb type_filter "symlink" && negb (is_symlink p) then Skip
  else Raise.

(** [condition = not invert if matched else invert] *)
Definition condition (matched invert : bool) : bool :=
  if matched then negb invert else invert.

Definition glob_ok (glob : option string) (invert : bool) (s : string) : bool :=
  match truthy glob with
  | Some g => condition (glob_match g s) invert
  | None => true
  end.

Definition regexp_ok (regexp : option string) (invert : bool) (s : string) : bool :=
  match truthy regexp with
  | Some r => condition (re_search r s) invert
  | None => true
  end.

(** The body of [for p in iterator] in [dir_ls]. *)
Definition entry_step (all : bool) (type_filter : string) (glob regexp : option string)
    (invert : bool) (p : Entry) : Step :=
  if negb all && starts_with "." (name p) then Skip
  else match type_step type_filter p with
       | Skip => Skip
       | Raise => Raise
       | Keep =>
           if negb (glob_ok glob invert (path_str p)) then Skip
           else if negb (regexp_ok regexp invert (path_str p)) then Skip
           else Keep
       end.

(** The loop; a [ValueError] is caught by [except Exception] and
    re-raised as [RuntimeError]. *)
Fixpoint scan (all : bool) (type_filter : string) (glob regexp : option string)
    (invert : bool) (es : list Entry) : Result (list string) :=
  match es with
  | [] => Ok []
  | p :: es' =>
      match entry_step all type_filter glob regexp invert p with
      | Raise => Err RuntimeError
      | Skip => scan all type_filter glob regexp invert es'
      | Keep =>
          match scan all type_filter glob regexp invert es' with
          | Ok r => Ok (path_str p :: r)
          | Err e => Err e
          end
      end
  end.

Definition dir_ls (path : Root) (all recurse : bool) (type_filter : string)
    (glob regexp : option string) (invert fail : bool) : Result (list string) :=
  match path with
  | RootMissing => if fail then Err FileNotFoundError else Ok []
  | RootNotDir => Err NotADirectoryError
  | RootDir it rg =>
      scan all type_filter glob regexp invert (if recurse then rg else it)
  end.

(** [path_filter]; each element is [str(Path(path))]. *)
Definition path_match (glob regexp : option string) (invert : bool) (p : string) : bool :=
  let m := true in
  let m := match truthy glob with
           | Some g => if glob_match g p then negb invert else invert
           | None => m
           end in
  match truthy regexp with
  | Some r => if re_search r p then negb invert else invert
  | None => m
  end.

Definition path_filter (paths : list string) (glob regexp : option string)
    (invert : bool) : list string :=
  filter (path_match glob regexp invert) paths.

End Matchers.

End Listing.

Import Symbolic Size Listing.

(* ------------------------------------------------------------------ *)
(** ** Sample inputs *)

(** Regular files [d/a.txt] and [d/b.txt] of a directory [d]. *)
Definition a_txt : Entry := mkEntry "a.txt" "d/a.txt" true false false.
Definition b_txt : Entry := mkEntry "b.txt" "d/b.txt" true false false.

(** A hidden regular file [d/.hidden] and a sub-directory [d/sub]. *)
Definition hidden_e : Entry := mkEntry ".hidden" "d/.hidden" true false false.
Definition sub_e : Entry := mkEntry "sub" "d/sub" false true false.

(** Concrete matchers: a pattern that is matched by exactly the path
    equal to it, and a matcher accepting every path. *)
Definition exact_match (pat s : string) : bool := String.eqb pat s.
Definition match_all (_ _ : string) : bool := true.

(** The sequence a listing enumerates. *)
Definition enumeration (path : Root) (recurse : bool) : list Entry :=
  match path with
  | RootDir it rg => if recurse then rg else it
  | _ => []
  end.

(** Order-preserving subsequence. *)
Inductive subseq {A : Type} : list A -> list A -> Prop :=
| subseq_nil : subseq [] []
| subseq_skip x l1 l2 : subseq l1 l2 -> subseq l1 (x :: l2)
| subseq_keep x l1 l2 : subseq l1 l2 -> subseq (x :: l1) (x :: l2).

(** The unit table of the spec, keyed on the first character after the
    digits (already upper-cased): K, M and G scale, anything else is 1. *)
Definition lead_unit_multiplier (r : string) : Z :=
  match r with
  | String c _ =>
      if Ascii.eqb c "K" then 1024
      else if Ascii.eqb c "M" then 1024 ^ 2
      else if Ascii.eqb c "G" then 1024 ^ 3
      else 1
  | EmptyString => 1
  end.

Definition starts_with_digit (s : string) : bool :=
  match s with
  | String c _ => is_digit c
  | EmptyString => false
  end.

Fixpoint all_digits (s : string) : bool :=
  match s with
  | String c s' => is_digit c && all_digits s'
  | EmptyString => true
  end.

(** Python's [str()] of a non-negative [int]: its decimal digits,
    most significant first, without leading zeros.  The fuel [n + 1] is
    enough since each step divides by 10. *)
Fixpoint py_str_of_nat_aux (fuel n : nat) (acc : string) : string :=
  match fuel with
  | O => acc
  | S f =>
      let acc' := String (ascii_of_nat (48 + n mod 10)) acc in
      if Nat.ltb n 10 then acc' else py_str_of_nat_aux f (n / 10) acc'
  end.
Definition py_str_of_nat (n : nat) : string := py_str_of_nat_aux (S n) n EmptyString.

(** The bits a ['+'] or ['-'] clause touches: the union of
    [perm_bits[w][p]] over the categories and letters of the clause. *)
Definition clause_mask (who perms : string) : Z :=
  let who' := match who with EmptyString => "a" | _ => who end in
  fold_left (fun acc w =>
               fold_left (fun acc p => match perm_bits w p with
                                       | Some b => Z.lor acc b
                                       | None => acc
                                       end) (list_ascii_of_string perms) acc)
            (list_ascii_of_string who') 0.


(* ------------------------------------------------------------------ *)
(** ** Callers of [dir_ls]: [dir_map] and [dir_walk] *)

Module Callers.
Section Matchers.
Variable glob_match : string -> string -> bool.
Variable re_search : string -> string -> bool.


(** [dir_walk]: the paths [fun] is called on, in call order; on success
    the function then returns [Path(path)], its own argument. *)
Definition dir_walk (path : Root) (all recurse : bool) (type_filter : string)
    (fail : bool) : Result (list string) :=
  match dir_ls glob_match re_search path all recurse type_filter None None false fail with
  | Ok paths => Ok (fold_left (fun calls p => (calls ++ [p])%list) paths [])
  | Err e => Err e
  end.
End Matchers.
End Callers.

(* ------------------------------------------------------------------ *)
(** ** [file_access] *)

Module Access.

Definition F_OK : Z := 0.
Definition R_OK : Z := 4.
Definition W_OK : Z := 2.
Definition X_OK : Z := 1.

(** [mode_map.get(m)] *)
Definition mode_map (m : string) : option Z :=
  if String.eqb m "exists" then Some F_OK
  else if String.eqb m "read" then Some R_OK
  else if String.eqb m "write" then Some W_OK
  else if String.eqb m "execute" then Some X_OK
  else None.

(** [str.split()] with no argument: the maximal runs of non-whitespace
    characters, so no empty word. *)
Fixpoint split_ws (s : string) : list string :=
  match s with
  | EmptyString => []
  | String c s' =>
      let r := split_ws s' in
      if is_space c then r
      else match s' with
           | String c2 _ =>
               if is_space c2 then String c EmptyString :: r
               else match r with
                    | h :: t => String c h :: t
                    | [] => [String c EmptyString]
                    end
           | EmptyString => [String c EmptyString]
           end
  end.

(** The loop building [modes]; [None] is the [ValueError] of the first
    word that is not a key of [mode_map]. *)
Fixpoint collect_modes (ws : list string) : option (list Z) :=
  match ws with
  | [] => Some []
  | w :: ws' =>
      match mode_map w with
      | Some m => match collect_modes ws' with
                  | Some ms => Some (m :: ms)
                  | None => None
                  end
      | None => None
      end
  end.

Section Os.
(** [os.access(path, m)] for the fixed [path]. *)
Variable access : Z -> bool.

(** [file_access]; [None] stands for the raised [ValueError]. *)
Definition file_access (mode : string) : option bool :=
  match collect_modes (split_ws mode) with
  | Some modes => Some (forallb access modes)
  | None => None
  end.
End Os.
End Access.

(* ------------------------------------------------------------------ *)
(** ** The temporary-files stack [_temp_stack] *)

Module TempStack.
Section Stack.

(** [Path(path)] for a path argument; [str] and [Path] values are both
    represented by their text. *)
Variable to_path : string -> string.

(** The module-level list [_temp_stack]; [append] and [pop()] act on its
    end. *)
Definition Stack := list string.

(** [file_temp_push]: the new stack and the returned [Path(path)]. *)
Definition file_temp_push (st : Stack) (path : string) : Stack * string :=
  ((st ++ [to_path path])%list, to_path path).

(** [file_temp_pop]: [_temp_stack.pop()] when the stack is non-empty,
    [None] otherwise. *)
Definition file_temp_pop (st : Stack) : Stack * option string :=
  match st with
  | [] => (st, None)
  | _ :: _ => (removelast st, Some (last st EmptyString))
  end.

(** The file system seen by [cleanup_temp_files], and the body of its
    [try] block on one path: [unlink] or [rmtree] by kind, with every
    exception caught and printed, so it always returns. *)
Variable FS : Type.
Variable delete_path : FS -> string -> FS.

(** [while _temp_stack: path = _temp_stack.pop(); ...]; the state also
    records the popped paths in order.  The fuel is the stack length,
    which every iteration shrinks by one. *)
Fixpoint cleanup_loop (fuel : nat) (st : Stack) (fs : FS) (popped : list string)
    : Stack * FS * list string :=
  match fuel with
  | O => (st, fs, popped)
  | S f =>
      match file_temp_pop st with
      | (st', Some path) => cleanup_loop f st' (delete_path fs path) (popped ++ [path])%list
      | (st', None) => (st', fs, popped)
      end
  end.

Definition cleanup_temp_files (st : Stack) (fs : FS) : Stack * FS * list string :=
  cleanup_loop (length st) st fs [].

End Stack.
End TempStack.

(* ------------------------------------------------------------------ *)
(** ** [path_sanitize] *)

Module Sanitize.

(** The class [[a-zA-Z0-9_.-]]. *)
Definition allowed (c : ascii) : bool :=
  let n := nat_of_ascii c in
  (Nat.leb 97 n && Nat.leb n 122) || (Nat.leb 65 n && Nat.leb n 90) ||
  (Nat.leb 48 n && Nat.leb n 57) || Ascii.eqb c "_" || Ascii.eqb c "." ||
  Ascii.eqb c "-".

(** [re.sub(r'[^a-zA-Z0-9_.-]', replacement, filename)]: every character
    outside the class is replaced on its own. *)
Fixpoint sub_invalid (replacement s : string) : string :=
  match s with
  | EmptyString => EmptyString
  | String c s' =>
      (if allowed c then String c EmptyString else replacement) ++ sub_invalid replacement s'
  end.

(** A run of [n] dots seen by the regex [\.{2,}]: two or more dots are
    one (greedy) match and become [replacement]; a single dot stays. *)
Definition flush_dots (replacement : string) (n : nat) : string :=
  match n with
  | O => EmptyString
  | S O => "."
  | _ => replacement
  end.

(** [re.sub(r'\.{2,}', replacement, s)], scanning left to right with the
    length [n] of the current run of dots. *)
Fixpoint sub_dots_aux (replacement : string) (n : nat) (s : string) : string :=
  match s with
  | EmptyString => flush_dots replacement n
  | String c s' =>
      if Ascii.eqb c "." then sub_dots_aux replacement (S n) s'
      else flush_dots replacement n ++ String c (sub_dots_aux replacement O s')
  end.
Definition sub_dots (replacement s : string) : string := sub_dots_aux replacement O s.

Definition reserved : list string :=
  ["CON"; "PRN"; "AUX"; "NUL";
   "COM1"; "COM2"; "COM3"; "COM4"; "COM5"; "COM6"; "COM7"; "COM8"; "COM9";
   "LPT1"; "LPT2"; "LPT3"; "LPT4"; "LPT5"; "LPT6"; "LPT7"; "LPT8"; "LPT9"].

Definition is_reserved (s : string) : bool := existsb (String.eqb s) reserved.

Definition path_sanitize (filename replacement : string) : string :=
  let sanitized := sub_invalid replacement filename in
  let sanitized := sub_dots replacement sanitized in
  let sanitized := if is_reserved (upper sanitized) then replacement else sanitized in
  substring 0 255 sanitized.

(** No two consecutive dots. *)
Fixpoint no_double_dot (s : string) : bool :=
  match s with
  | String a ((String b _) as t) =>
      negb (Ascii.eqb a "." && Ascii.eqb b ".") && no_double_dot t
  | _ => true
  end.

End Sanitize.

(* ------------------------------------------------------------------ *)
(** ** [fs_perms] and [fs_bytes] *)

Module Conv.





End Conv.

Import Callers Access TempStack Sanitize Conv.

(** Every character is whitespace in the sense of [str.strip()]. *)
Definition all_space (w : string) : bool := forallb is_space (list_ascii_of_string w).

(** One step of [clause_mask]. *)
Definition mask_step (w : ascii) (acc : Z) (p : ascii) : Z :=
  match perm_bits w p with Some b => Z.lor acc b | None => acc end.

(** Every character is in [[a-zA-Z0-9_.-]]. *)
Definition all_allowed (s : string) : bool := forallb allowed (list_ascii_of_string s).

(* ================================================================== *)
(** * Properties of [symbolic_to_octal] *)

(** Bits of a mode lie among the nine permission bits. *)
Definition nine_bits (m : Z) : Prop := Z.land m 511 = m.

Lemma nine_bits_land (m x : Z) : nine_bits m -> nine_bits (Z.land m x).
Proof.
  unfold nine_bits; intros H.
  rewrite <- Z.land_assoc, (Z.land_comm x 511), Z.land_assoc, H; reflexivity.
Qed.

Lemma nine_bits_lor (m b : Z) : nine_bits m -> nine_bits b -> nine_bits (Z.lor m b).
Proof.
  unfold nine_bits; intros Hm Hb.
  rewrite Z.land_lor_distr_l, Hm, Hb; reflexivity.
Qed.

Lemma perm_bits_nine (w p : ascii) (b : Z) : perm_bits w p = Some b -> nine_bits b.
Proof.
  unfold perm_bits; intros H.
  repeat match type of H with
         | context [match ?x with _ => _ end] => destruct x
         end;
  try discriminate; injection H as <-; reflexivity.
Qed.

Lemma clear_category_nine (w : ascii) (m : Z) : nine_bits m -> nine_bits (clear_category w m).
Proof.
  unfold clear_category, perm_keys; simpl; intros H.
  repeat (destruct (perm_bits w _); try apply nine_bits_land); assumption.
Qed.

Lemma apply_perm_nine (action w p : ascii) (m : Z) :
  nine_bits m -> nine_bits (apply_perm action w m p).
Proof.
  unfold apply_perm; intros H.
  destruct (perm_bits w p) as [b|] eqn:Hb; [|assumption].
  apply perm_bits_nine in Hb.
  destruct (Ascii.eqb action "+"); [now apply nine_bits_lor|].
  destruct (Ascii.eqb action "-"); [now apply nine_bits_land|].
  destruct (Ascii.eqb action "="); [|assumption].
  apply nine_bits_lor; [|assumption].
  destruct (negb _); [now apply clear_category_nine|assumption].
Qed.

Lemma apply_clause_nine (m : Z) (who : string) (action : ascii) (perms : string) :
  nine_bits m -> nine_bits (apply_clause m who action perms).
Proof.
  unfold apply_clause.
  generalize (list_ascii_of_string perms) as ps.
  generalize (list_ascii_of_string match who with EmptyString => "a" | _ => who end) as ws.
  intros ws ps; revert m.
  induction ws as [|w ws IH]; simpl; intros m H; [assumption|].
  apply IH; clear IH; revert m H.
  induction ps as [|p ps IH]; simpl; intros m H; [assumption|].
  apply IH, apply_perm_nine, H.
Qed.

Lemma apply_ops_nine (m : Z) (ops : list string) (r : Z) :
  nine_bits m -> apply_ops m ops = Some r -> nine_bits r.
Proof.
  revert m; induction ops as [|op ops IH]; simpl; intros m Hm Hr.
  - injection Hr as <-; assumption.
  - destruct (parse_op (strip op)) as [[[who action] perms]|]; [|discriminate].
    exact (IH _ (apply_clause_nine _ _ _ _ Hm) Hr).
Qed.

Lemma nine_bits_range (m : Z) : nine_bits m -> 0 <= m <= 511.
Proof.
  unfold nine_bits; intros H.
  change 511 with (Z.ones 9) in H.
  rewrite Z.land_ones in H by lia.
  pose proof (Z.mod_pos_bound m (2 ^ 9) ltac:(lia)).
  rewrite H in *; simpl in *; lia.
Qed.

Lemma split_comma_nonempty (s : string) : split_comma s <> [].
Proof.
  destruct s as [|c s]; simpl; [discriminate|].
  destruct (Ascii.eqb c ","); [discriminate|].
  destruct (split_comma s); discriminate.
Qed.

(** [(s1 + ',' + s2).split(',') == s1.split(',') + s2.split(',')] *)
Lemma split_comma_app (s1 s2 : string) :
  split_comma (s1 ++ String "," s2) = (split_comma s1 ++ split_comma s2)%list.
Proof.
  induction s1 as [|c s1 IH]; [reflexivity|].
  simpl; rewrite IH.
  destruct (Ascii.eqb c ","); [reflexivity|].
  pose proof (split_comma_nonempty s1).
  destruct (split_comma s1); [contradiction|reflexivity].
Qed.

Lemma apply_ops_app (m : Z) (l1 l2 : list string) :
  apply_ops m (l1 ++ l2)%list =
  match apply_ops m l1 with Some m' => apply_ops m' l2 | None => None end.
Proof.
  revert m; induction l1 as [|op l1 IH]; intros m; [reflexivity|].
  simpl; destruct (parse_op (strip op)) as [[[who action] perms]|]; [apply IH|reflexivity].
Qed.

Lemma apply_perm_eq_all_is_plus (m : Z) (p : ascii) :
  apply_perm "=" "a" m p = apply_perm "+" "a" m p.
Proof. unfold apply_perm; destruct (perm_bits "a" p); reflexivity. Qed.

(** C1 (code_bug): under an explicit category the [=] branch clears the
    category again before every permission letter, so ["u=rw"] keeps the
    owner-write bit only and loses owner-read. *)
Theorem compile_u_eq_rw_loses_read :
  symbolic_to_octal "u=rw" = Some S_IWUSR.
Proof. reflexivity. Qed.

(** C2 (counterexample): after ["u+w"], the clause ["a=r"] does not clear
    owner-write: the result is 0o644, not 0o444. *)
Lemma compile_a_eq_r_keeps_prior_bits :
  symbolic_to_octal "u+w,a=r" = Some 420 /\ 420 <> 292.
Proof. split; [reflexivity|discriminate]. Qed.

(** C2 (amended): a clause with action [=] whose category list is empty
    or ["a"] clears nothing; it behaves exactly as the same clause with
    action [+], OR-ing in the requested bits of all three categories. *)
Theorem compile_eq_all_alias_acts_as_plus (m : Z) (who perms : string) :
  who = EmptyString \/ who = "a" ->
  apply_clause m who "=" perms = apply_clause m who "+" perms.
Proof.
  intros Hwho.
  assert (Hw : match who with EmptyString => "a" | _ => who end = "a")
    by (destruct Hwho; subst; reflexivity).
  unfold apply_clause; rewrite Hw; simpl.
  generalize (list_ascii_of_string perms) as ps; intros ps; revert m.
  induction ps as [|p ps IH]; intros m; [reflexivity|].
  simpl; rewrite apply_perm_eq_all_is_plus; apply IH.
Qed.

Lemma compile_eq_all_alias_acts_as_plus_witness :
  (EmptyString = EmptyString \/ EmptyString = "a") /\
  apply_clause 128 EmptyString "=" "r" = apply_clause 128 EmptyString "+" "r".
Proof.
  split; [left; reflexivity|].
  apply (compile_eq_all_alias_acts_as_plus 128 EmptyString "r"); left; reflexivity.
Defined.

(** C3 (code_bug): the clause regex is only anchored at the start, so a
    trailing letter outside [rwx] is silently dropped: ["u+rq"] compiles
    to owner-read instead of failing. *)
Theorem compile_u_plus_rq_accepted :
  symbolic_to_octal "u+rq" = Some S_IRUSR.
Proof. reflexivity. Qed.

(** C4 (counterexample): [symbolic_to_octal] has no base argument; the
    accumulator always starts at 0, so ["u-w"] yields 0 and never the
    0o577 a base of 0o777 would give. *)
Lemma compile_has_no_base :
  symbolic_to_octal "u-w" = Some 0 /\
  Some 0 <> Some (Z.land 511 (Z.lnot S_IWUSR)).
Proof. split; [reflexivity|discriminate]. Qed.

(** C4 (amended): the clauses are applied left to right to a running
    accumulator that starts at 0: the clauses after a comma act on the
    mode the clauses before it produced; ["a-rwx"] yields 0 and clause
    order matters. *)
Theorem compile_left_to_right_from_zero :
  (forall s1 s2 : string,
     symbolic_to_octal (s1 ++ String "," s2) =
     match symbolic_to_octal s1 with
     | Some m => apply_ops m (split_comma s2)
     | None => None
     end) /\
  symbolic_to_octal "a-rwx" = Some 0 /\
  symbolic_to_octal "u+rwx,u-w" <> symbolic_to_octal "u-w,u+rwx".
Proof.
  split; [|split; [reflexivity|discriminate]].
  intros s1 s2; unfold symbolic_to_octal.
  rewrite split_comma_app, apply_ops_app; reflexivity.
Qed.

(** C5: every mode [symbolic_to_octal] returns lies in [0, 0o777] and has
    no bit outside the nine permission bits. *)
Theorem compile_within_nine_bits (s : string) (m : Z) :
  symbolic_to_octal s = Some m ->
  0 <= m <= 511 /\ Z.land m (Z.lnot 511) = 0.
Proof.
  unfold symbolic_to_octal; intros H.
  apply apply_ops_nine in H; [|reflexivity].
  split; [now apply nine_bits_range|].
  unfold nine_bits in H; rewrite <- H, <- Z.land_assoc, Z.land_lnot_diag.
  apply Z.land_0_r.
Qed.

Lemma compile_within_nine_bits_witness :
  symbolic_to_octal "a+rwx" = Some 511 /\
  (0 <= 511 <= 511 /\ Z.land 511 (Z.lnot 511) = 0).
Proof.
  split; [reflexivity|].
  apply (compile_within_nine_bits "a+rwx" 511); reflexivity.
Defined.

(* ================================================================== *)
(** * Properties of [human_to_bytes] *)

Lemma upper_char_is_digit (c : ascii) : is_digit (upper_char c) = is_digit c.
Proof.
  unfold is_digit, upper_char.
  destruct (Nat.leb 97 (nat_of_ascii c) && Nat.leb (nat_of_ascii c) 122) eqn:E;
    [|reflexivity].
  apply andb_true_iff in E as [E1 E2].
  apply Nat.leb_le in E1; apply Nat.leb_le in E2.
  rewrite Ascii.nat_ascii_embedding by lia.
  replace (Nat.leb (nat_of_ascii c - 32) 57) with false by (symmetry; apply Nat.leb_gt; lia).
  replace (Nat.leb (nat_of_ascii c) 57) with false by (symmetry; apply Nat.leb_gt; lia).
  rewrite !andb_false_r; reflexivity.
Qed.

Lemma upper_char_digit_id (c : ascii) : is_digit c = true -> upper_char c = c.
Proof.
  unfold is_digit, upper_char; intros H.
  apply andb_true_iff in H as [_ H]; apply Nat.leb_le in H.
  replace (Nat.leb 97 (nat_of_ascii c)) with false by (symmetry; apply Nat.leb_gt; lia).
  reflexivity.
Qed.

Lemma upper_app (a b : string) : upper (a ++ b) = upper a ++ upper b.
Proof. induction a as [|c a IH]; simpl; [reflexivity|now rewrite IH]. Qed.

Lemma upper_digits (d : string) : all_digits d = true -> upper d = d.
Proof.
  induction d as [|c d IH]; simpl; intros H; [reflexivity|].
  apply andb_true_iff in H as [Hc Hd].
  rewrite upper_char_digit_id, IH; auto.
Qed.

Lemma starts_with_digit_upper (s : string) :
  starts_with_digit (upper s) = starts_with_digit s.
Proof. destruct s; simpl; [reflexivity|apply upper_char_is_digit]. Qed.

Lemma span_digits_app (d r : string) :
  all_digits d = true -> starts_with_digit r = false ->
  span is_digit (d ++ r) = (d, r).
Proof.
  intros Hd Hr; induction d as [|c d IH]; simpl in *.
  - destruct r as [|c r]; [reflexivity|]; simpl in *; rewrite Hr; reflexivity.
  - apply andb_true_iff in Hd as [Hc Hd]; rewrite Hc, IH by assumption; reflexivity.
Qed.

Lemma span_digits_empty (s : string) :
  fst (span is_digit s) = EmptyString <-> starts_with_digit s = false.
Proof.
  destruct s as [|c s]; simpl; [tauto|].
  destruct (is_digit c); simpl; [|tauto].
  destruct (span is_digit s); simpl; split; discriminate.
Qed.

Lemma units_get_unit_group (r : string) :
  units_get (unit_group r) = lead_unit_multiplier r.
Proof.
  destruct r as [|c r]; [reflexivity|].
  unfold unit_group, lead_unit_multiplier, is_unit_letter.
  destruct (Ascii.eqb c "K") eqn:EK;
    [apply Ascii.eqb_eq in EK; subst; destruct r as [|b r];
     [|destruct (Ascii.eqb b "B") eqn:EB; [apply Ascii.eqb_eq in EB; subst|]]; reflexivity|].
  destruct (Ascii.eqb c "M") eqn:EM;
    [apply Ascii.eqb_eq in EM; subst; destruct r as [|b r];
     [|destruct (Ascii.eqb b "B") eqn:EB; [apply Ascii.eqb_eq in EB; subst|]]; reflexivity|].
  destruct (Ascii.eqb c "G") eqn:EG;
    [apply Ascii.eqb_eq in EG; subst; destruct r as [|b r];
     [|destruct (Ascii.eqb b "B") eqn:EB; [apply Ascii.eqb_eq in EB; subst|]]; reflexivity|].
  destruct (Ascii.eqb c "B") eqn:EB;
    [apply Ascii.eqb_eq in EB; subst; destruct r as [|b r];
     [|destruct (Ascii.eqb b "B") eqn:EB; [apply Ascii.eqb_eq in EB; subst|]]; reflexivity|].
  reflexivity.
Qed.

(** C6 (counterexample): the suffix ["KX"] is not one of the spec's
    suffixes, yet the multiplier is 1024, not 1. *)
Lemma human_to_bytes_KX :
  human_to_bytes "5KX" = Some 5120 /\ 5120 <> 5 * 1.
Proof. split; [reflexivity|discriminate]. Qed.

(** C6 (amended): [human_to_bytes] fails exactly when the text does not
    start with a decimal digit; otherwise it returns the leading decimal
    integer times a multiplier chosen by the first character after the
    digits, case-insensitively (K: 1024, M: 1024^2, G: 1024^3, anything
    else or nothing: 1), ignoring the rest of the text. *)
Theorem human_to_bytes_spec :
  (forall s : string, human_to_bytes s = None <-> starts_with_digit s = false) /\
  (forall d rest : string,
     d <> EmptyString -> all_digits d = true -> starts_with_digit rest = false ->
     human_to_bytes (d ++ rest) = Some (int_of_digits d * lead_unit_multiplier (upper rest))) /\
  human_to_bytes "5MB" = Some (5 * 1024 * 1024) /\
  human_to_bytes "10" = Some 10 /\
  human_to_bytes "" = None.
Proof.
  split; [|split; [|repeat split]].
  - intros s; rewrite <- starts_with_digit_upper, <- span_digits_empty.
    unfold human_to_bytes.
    destruct (span is_digit (upper s)) as [num rest]; simpl.
    destruct num; split; congruence.
  - intros d rest Hne Hd Hr.
    unfold human_to_bytes.
    rewrite upper_app, upper_digits, span_digits_app by
      (try rewrite starts_with_digit_upper; assumption).
    rewrite units_get_unit_group.
    destruct d; [contradiction|reflexivity].
Qed.

Lemma human_to_bytes_spec_witness :
  ("5" <> EmptyString /\ all_digits "5" = true /\ starts_with_digit "kb" = false) /\
  human_to_bytes ("5" ++ "kb") = Some (int_of_digits "5" * lead_unit_multiplier (upper "kb")).
Proof.
  split; [split; [discriminate|split; reflexivity]|].
  apply (proj1 (proj2 human_to_bytes_spec)); [discriminate|reflexivity|reflexivity].
Defined.

(* ================================================================== *)
(** * Properties of [dir_ls] and [path_filter] *)

(** C7 (code_bug): the filter value is only looked at inside the loop, so
    an invalid [type_filter] on an empty directory, or on a missing root
    with [fail=False], lists nothing instead of raising. *)
Theorem dir_ls_bogus_filter_unchecked :
  forall glob_match re_search : string -> string -> bool,
    dir_ls glob_match re_search (RootDir [] []) false false "bogus" None None false true = Ok [] /\
    dir_ls glob_match re_search RootMissing false false "bogus" None None false false = Ok [] /\
    dir_ls glob_match re_search (RootDir [a_txt] [a_txt]) false false "bogus" None None false true
      = Err RuntimeError.
Proof. repeat split. Qed.

(** The chained type test raises on every entry whose kind is the one
    requested. *)
Lemma type_step_matching_kind_raises (p : Entry) :
  (is_file p = true -> type_step "file" p = Raise) /\
  (is_dir p = true -> type_step "directory" p = Raise) /\
  (is_symlink p = true -> type_step "symlink" p = Raise).
Proof.
  unfold type_step; simpl.
  repeat split; intros H; rewrite H; reflexivity.
Qed.

(** C8 (code_bug): listing a directory that holds one regular file with
    [type_filter="file"] raises (a [ValueError] wrapped in
    [RuntimeError]) instead of returning that file. *)
Theorem dir_ls_matching_file_raises :
  forall glob_match re_search : string -> string -> bool,
    dir_ls glob_match re_search (RootDir [a_txt] [a_txt]) false false "file" None None false true
      = Err RuntimeError.
Proof. reflexivity. Qed.

(** In [dir_ls], glob and regex each act as a separate filter: a visible
    entry passing the type test is kept only if it passes both, each
    test negated when [invert] holds. *)
Lemma entry_step_any_conjunction (glob_match re_search : string -> string -> bool)
    (glob regexp : option string) (invert : bool) (p : Entry) :
  entry_step glob_match re_search true "any" glob regexp invert p =
  if glob_ok glob_match glob invert (path_str p) && regexp_ok re_search regexp invert (path_str p)
  then Keep else Skip.
Proof.
  unfold entry_step; simpl.
  destruct (glob_ok _ _ _ _), (regexp_ok _ _ _ _); reflexivity.
Qed.

(** C9 (code_bug): in [path_filter] the regex result overwrites the glob
    result, so a path the glob rejects is still kept when the regex
    accepts it. *)
Theorem path_filter_regexp_overrides_glob
    (glob_match re_search : string -> string -> bool) (p g r : string) :
  g <> EmptyString -> r <> EmptyString ->
  glob_match g p = false -> re_search r p = true ->
  path_filter glob_match re_search [p] (Some g) (Some r) false = [p].
Proof.
  intros Hg Hr Hgm Hrs.
  unfold path_filter, path_match; simpl.
  destruct r as [|c r]; [contradiction|].
  rewrite Hrs; reflexivity.
Qed.

Lemma path_filter_regexp_overrides_glob_witness :
  ("*.py" <> EmptyString /\ "a" <> EmptyString /\
   exact_match "*.py" "d/a.txt" = false /\ match_all "a" "d/a.txt" = true) /\
  path_filter exact_match match_all ["d/a.txt"] (Some "*.py") (Some "a") false = ["d/a.txt"].
Proof.
  split; [repeat split; discriminate|].
  apply (path_filter_regexp_overrides_glob exact_match match_all "d/a.txt" "*.py" "a");
    [discriminate|discriminate|reflexivity|reflexivity].
Defined.

(** C10 (counterexample): entries enumerated as [d/b.txt], [d/a.txt] are
    returned in that order, which is not lexicographic. *)
Lemma dir_ls_not_sorted :
  dir_ls match_all match_all (RootDir [b_txt; a_txt] [b_txt; a_txt])
         false false "any" None None false true = Ok ["d/b.txt"; "d/a.txt"] /\
  String.ltb "d/a.txt" "d/b.txt" = true.
Proof. split; reflexivity. Qed.

Lemma scan_subseq (glob_match re_search : string -> string -> bool) (all : bool)
    (type_filter : string) (glob regexp : option string) (invert : bool)
    (es : list Entry) (res : list string) :
  scan glob_match re_search all type_filter glob regexp invert es = Ok res ->
  subseq res (map path_str es).
Proof.
  revert res; induction es as [|p es IH]; simpl; intros res H.
  - injection H as <-; constructor.
  - destruct (entry_step _ _ _ _ _ _ _ p); [now constructor; apply IH| |discriminate].
    destruct (scan _ _ _ _ _ _ _ es) as [r|e] eqn:Hs; [|discriminate].
    injection H as <-; constructor; apply IH; reflexivity.
Qed.

(** C10 (amended): [dir_ls] does not sort; on success it returns the
    kept paths as an order-preserving subsequence of the enumeration
    ([iterdir], or [rglob('*')] when recursing), in the order the file
    system yields them. *)
Theorem dir_ls_enumeration_order
    (glob_match re_search : string -> string -> bool) (path : Root)
    (all recurse : bool) (type_filter : string) (glob regexp : option string)
    (invert fail : bool) (res : list string) :
  dir_ls glob_match re_search path all recurse type_filter glob regexp invert fail = Ok res ->
  subseq res (map path_str (enumeration path recurse)).
Proof.
  destruct path as [| |it rg]; simpl; intros H.
  - destruct fail; [discriminate|injection H as <-; constructor].
  - discriminate.
  - eapply scan_subseq; exact H.
Qed.

Lemma dir_ls_enumeration_order_witness :
  dir_ls match_all match_all (RootDir [b_txt; a_txt] [b_txt; a_txt])
         false false "any" None None false true = Ok ["d/b.txt"; "d/a.txt"] /\
  subseq ["d/b.txt"; "d/a.txt"]
         (map path_str (enumeration (RootDir [b_txt; a_txt] [b_txt; a_txt]) false)).
Proof.
  split; [reflexivity|].
  apply (dir_ls_enumeration_order match_all match_all (RootDir [b_txt; a_txt] [b_txt; a_txt])
           false false "any" None None false true); reflexivity.
Defined.

(* ================================================================== *)
(** * Further properties of the permission compiler *)

Lemma lstrip_space_app (w x : string) : all_space w = true -> lstrip (w ++ x) = lstrip x.
Proof.
  induction w as [|c w IH]; simpl; [reflexivity|].
  unfold all_space; simpl; intros H; apply andb_true_iff in H as [Hc Hw].
  rewrite Hc; apply IH, Hw.
Qed.

Lemma rstrip_app_space (y w : string) : all_space w = true -> rstrip (y ++ w) = rstrip y.
Proof.
  intros Hw; induction y as [|c y IH]; simpl.
  - induction w as [|c w IHw]; simpl; [reflexivity|].
    unfold all_space in Hw; simpl in Hw; apply andb_true_iff in Hw as [Hc Hw].
    rewrite IHw by exact Hw; rewrite Hc; reflexivity.
  - rewrite IH; reflexivity.
Qed.

Lemma strip_pad (w1 w2 op : string) :
  all_space w1 = true -> all_space w2 = true -> strip (w1 ++ op ++ w2) = strip op.
Proof.
  intros H1 H2; unfold strip; rewrite lstrip_space_app by exact H1.
  induction op as [|c op IH]; simpl.
  - induction w2 as [|c w2 IHw]; simpl; [reflexivity|].
    unfold all_space in H2; simpl in H2; apply andb_true_iff in H2 as [Hc Hw].
    rewrite Hc; exact (IHw Hw).
  - destruct (is_space c); [exact IH|].
    exact (rstrip_app_space (String c op) w2 H2).
Qed.

(** Whitespace around a comma-separated clause of [symbolic_to_octal] is
    ignored: padding every clause with whitespace on both sides does not
    change the outcome of the clause loop. *)
Theorem apply_ops_ignores_padding (w1 w2 : string) (m : Z) (ops : list string) :
  all_space w1 = true -> all_space w2 = true ->
  apply_ops m (map (fun op => w1 ++ op ++ w2) ops) = apply_ops m ops.
Proof.
  intros H1 H2; revert m; induction ops as [|op ops IH]; intros m; simpl; [reflexivity|].
  rewrite strip_pad by assumption.
  destruct (parse_op (strip op)) as [[[who action] perms]|]; [apply IH|reflexivity].
Qed.

Lemma apply_ops_ignores_padding_witness :
  (all_space " " = true /\ all_space (String "009"%char EmptyString) = true) /\
  apply_ops 0 (map (fun op => " " ++ op ++ String "009"%char EmptyString) ["u+r"; "g=w"])
  = apply_ops 0 ["u+r"; "g=w"].
Proof.
  split; [split; reflexivity|].
  apply apply_ops_ignores_padding; reflexivity.
Defined.

Lemma plus_inner (w : ascii) (ps : list ascii) (m a : Z) :
  fold_left (apply_perm "+" w) ps (Z.lor m a) = Z.lor m (fold_left (mask_step w) ps a).
Proof.
  revert a; induction ps as [|p ps IH]; intros a; simpl; [reflexivity|].
  unfold apply_perm, mask_step at 2; destruct (perm_bits w p) as [b|]; simpl.
  - rewrite <- Z.lor_assoc; apply IH.
  - apply IH.
Qed.

Lemma minus_inner (w : ascii) (ps : list ascii) (m a : Z) :
  fold_left (apply_perm "-" w) ps (Z.land m (Z.lnot a)) =
  Z.land m (Z.lnot (fold_left (mask_step w) ps a)).
Proof.
  revert a; induction ps as [|p ps IH]; intros a; simpl; [reflexivity|].
  unfold apply_perm, mask_step at 2; destruct (perm_bits w p) as [b|]; simpl.
  - rewrite <- Z.land_assoc, <- Z.lnot_lor; apply IH.
  - apply IH.
Qed.

(** A ['+'] clause ORs in exactly the mask of its categories and letters,
    and a ['-'] clause clears exactly that mask; the other bits of the
    mode are untouched. *)
Theorem plus_minus_clause_mask (m : Z) (who perms : string) :
  apply_clause m who "+" perms = Z.lor m (clause_mask who perms) /\
  apply_clause m who "-" perms = Z.land m (Z.lnot (clause_mask who perms)).
Proof.
  unfold apply_clause, clause_mask.
  generalize (list_ascii_of_string perms) as ps.
  generalize (list_ascii_of_string match who with EmptyString => "a" | _ => who end) as ws.
  intros ws ps; split.
  - rewrite <- (Z.lor_0_r m) at 1; generalize 0 as a; revert m.
    induction ws as [|w ws IH]; intros m a; simpl; [reflexivity|].
    rewrite plus_inner; apply IH.
  - replace m with (Z.land m (Z.lnot 0)) at 1 by apply Z.land_m1_r.
    generalize 0 as a; revert m.
    induction ws as [|w ws IH]; intros m a; simpl; [reflexivity|].
    rewrite minus_inner; apply IH.
Qed.

(** A clause with no permission letters changes nothing, whatever its
    action: ["u="] does not clear the owner bits. *)
Theorem clause_without_perms_is_noop (m : Z) (who : string) (action : ascii) :
  apply_clause m who action EmptyString = m.
Proof.
  unfold apply_clause; simpl.
  generalize (list_ascii_of_string match who with EmptyString => "a" | _ => who end) as ws.
  induction ws as [|w ws IH]; simpl; [reflexivity|exact IH].
Qed.

(* ================================================================== *)
(** * Further properties of [human_to_bytes], [fs_bytes] and [fs_perms] *)

Lemma int_of_digits_acc_nonneg (a : Z) (s : string) : 0 <= a -> 0 <= int_of_digits_acc a s.
Proof.
  revert a; induction s as [|c s IH]; intros a Ha; cbn [int_of_digits_acc]; [exact Ha|].
  apply IH; pose proof (Nat2Z.is_nonneg (nat_of_ascii c - 48)); lia.
Qed.

Lemma units_get_pos (u : string) : 1 <= units_get u.
Proof.
  unfold units_get.
  repeat match goal with |- context [if ?b then _ else _] => destruct b end;
  vm_compute; intros H; discriminate.
Qed.

Lemma human_to_bytes_nonneg_aux (s : string) (v : Z) :
  human_to_bytes s = Some v -> 0 <= v.
Proof.
  unfold human_to_bytes; destruct (span is_digit (upper s)) as [num rest].
  destruct num; intros H; [discriminate|injection H as <-].
  apply Z.mul_nonneg_nonneg; [apply int_of_digits_acc_nonneg; lia|].
  pose proof (units_get_pos (unit_group rest)); lia.
Qed.

(** [human_to_bytes] never returns a negative size: a leading minus sign
    is not a digit, so ["-5KB"] is rejected. *)
Theorem human_to_bytes_nonneg (s : string) (v : Z) :
  human_to_bytes s = Some v -> 0 <= v.
Proof. apply human_to_bytes_nonneg_aux. Qed.

Lemma human_to_bytes_nonneg_witness :
  human_to_bytes "12kb" = Some 12288 /\ 0 <= 12288.
Proof. split; [reflexivity|apply (human_to_bytes_nonneg "12kb"); reflexivity]. Defined.

Lemma int_of_digits_acc_app (a : Z) (x y : string) :
  int_of_digits_acc a (x ++ y) = int_of_digits_acc (int_of_digits_acc a x) y.
Proof. revert a; induction x as [|c x IH]; intros a; simpl; [reflexivity|apply IH]. Qed.

Lemma all_digits_app (x y : string) :
  all_digits (x ++ y) = all_digits x && all_digits y.
Proof. induction x as [|c x IH]; simpl; [reflexivity|rewrite IH, andb_assoc; reflexivity]. Qed.

Lemma string_app_assoc (x y z : string) : (x ++ y) ++ z = x ++ (y ++ z).
Proof. induction x as [|c x IH]; simpl; [reflexivity|now rewrite IH]. Qed.

Lemma py_str_of_nat_aux_acc (f n : nat) (acc : string) :
  py_str_of_nat_aux f n acc = py_str_of_nat_aux f n EmptyString ++ acc.
Proof.
  revert n acc; induction f as [|f IH]; intros n acc; simpl; [reflexivity|].
  destruct (Nat.ltb n 10); [reflexivity|].
  rewrite IH, (IH _ (String _ EmptyString)), string_app_assoc; reflexivity.
Qed.

Lemma digit_char (k : nat) : (k < 10)%nat ->
  is_digit (ascii_of_nat (48 + k)) = true /\ nat_of_ascii (ascii_of_nat (48 + k)) = (48 + k)%nat.
Proof.
  intros Hk; unfold is_digit; rewrite Ascii.nat_ascii_embedding by lia.
  split; [|reflexivity].
  apply andb_true_iff; split; apply Nat.leb_le; lia.
Qed.

Lemma py_str_of_nat_aux_digits (f n : nat) :
  (n < f)%nat ->
  py_str_of_nat_aux f n EmptyString <> EmptyString /\
  all_digits (py_str_of_nat_aux f n EmptyString) = true /\
  int_of_digits (py_str_of_nat_aux f n EmptyString) = Z.of_nat n.
Proof.
  revert n; induction f as [|f IH]; intros n Hn; [lia|].
  pose proof (Nat.mod_upper_bound n 10 ltac:(lia)) as Hm.
  destruct (digit_char (n mod 10) Hm) as [Hd Hv].
  cbn [py_str_of_nat_aux].
  set (c := ascii_of_nat (48 + n mod 10)) in *.
  assert (Hc : int_of_digits (String c EmptyString) = Z.of_nat (n mod 10)).
  { unfold int_of_digits; cbn [int_of_digits_acc]; rewrite Hv.
    replace (48 + n mod 10 - 48)%nat with (n mod 10)%nat by lia; lia. }
  assert (Hcd : all_digits (String c EmptyString) = true).
  { cbn [all_digits]; rewrite Hd; reflexivity. }
  destruct (Nat.ltb n 10) eqn:Hlt.
  - apply Nat.ltb_lt in Hlt.
    rewrite Nat.mod_small in Hc by exact Hlt.
    split; [discriminate|split; assumption].
  - apply Nat.ltb_ge in Hlt.
    assert (Hdiv : (n / 10 < f)%nat).
    { assert (Nat.lt (n / 10) n) by (apply Nat.div_lt; lia). lia. }
    destruct (IH (n / 10)%nat Hdiv) as (Hne & Had & Hint).
    rewrite py_str_of_nat_aux_acc; split; [|split].
    + destruct (py_str_of_nat_aux f (n / 10) EmptyString); [contradiction|discriminate].
    + rewrite all_digits_app, Had, Hcd; reflexivity.
    + unfold int_of_digits in *; rewrite int_of_digits_acc_app, Hint.
      cbn [int_of_digits_acc]; rewrite Hv.
      replace (48 + n mod 10 - 48)%nat with (n mod 10)%nat by lia.
      pose proof (Nat.div_mod_eq n 10); lia.
Qed.

Lemma human_to_bytes_digits_app (d rest : string) :
  d <> EmptyString -> all_digits d = true -> starts_with_digit rest = false ->
  human_to_bytes (d ++ rest) = Some (int_of_digits d * lead_unit_multiplier (upper rest)).
Proof.
  intros Hne Hd Hr.
  unfold human_to_bytes.
  rewrite upper_app, upper_digits, span_digits_app by
    (try rewrite starts_with_digit_upper; assumption).
  rewrite units_get_unit_group.
  destruct d; [contradiction|reflexivity].
Qed.

(** Round trip: reading back Python's [str(n)], followed by any unit
    suffix that does not start with a digit, gives [n] times the unit
    multiplier; in particular [human_to_bytes(str(n)) = n]. *)
Theorem human_to_bytes_str_roundtrip (n : nat) (suffix : string) :
  starts_with_digit suffix = false ->
  human_to_bytes (py_str_of_nat n ++ suffix) =
  Some (Z.of_nat n * lead_unit_multiplier (upper suffix)).
Proof.
  intros Hs.
  destruct (py_str_of_nat_aux_digits (S n) n ltac:(lia)) as (Hne & Hd & Hint).
  unfold py_str_of_nat; rewrite human_to_bytes_digits_app by assumption.
  rewrite Hint; reflexivity.
Qed.

Lemma human_to_bytes_str_roundtrip_witness :
  starts_with_digit "mb" = false /\
  human_to_bytes (py_str_of_nat 42 ++ "mb") =
  Some (Z.of_nat 42 * lead_unit_multiplier (upper "mb")).
Proof.
  split; [reflexivity|].
  apply human_to_bytes_str_roundtrip; reflexivity.
Defined.





(* ================================================================== *)
(** * Further properties of [dir_ls], its callers and [path_filter] *)

Section ListingProps.
Variable glob_match : string -> string -> bool.
Variable re_search : string -> string -> bool.



Lemma type_step_not_keep (tf : string) (p : Entry) :
  tf <> "any" -> type_step tf p <> Keep.
Proof.
  intros Htf; unfold type_step.
  apply String.eqb_neq in Htf; rewrite Htf.
  repeat match goal with |- context [if ?b then _ else _] => destruct b end; discriminate.
Qed.

Lemma scan_not_any (all : bool) (tf : string) (glob regexp : option string) (invert : bool)
    (es : list Entry) (res : list string) :
  tf <> "any" ->
  scan glob_match re_search all tf glob regexp invert es = Ok res -> res = [].
Proof.
  intros Htf; revert res; induction es as [|p es IH]; simpl; intros res H.
  - injection H as <-; reflexivity.
  - unfold entry_step in H at 1.
    destruct (negb all && starts_with "." (name p)); [exact (IH _ H)|].
    pose proof (type_step_not_keep tf p Htf).
    destruct (type_step tf p); [exact (IH _ H)|contradiction|discriminate].
Qed.

Lemma scan_kept (all : bool) (tf : string) (glob regexp : option string) (invert : bool)
    (es : list Entry) (res : list string) :
  scan glob_match re_search all tf glob regexp invert es = Ok res ->
  Forall (fun s => exists e, In e es /\ path_str e = s /\
                     entry_step glob_match re_search all tf glob regexp invert e = Keep) res.
Proof.
  revert res; induction es as [|p es IH]; simpl; intros res H.
  - injection H as <-; constructor.
  - destruct (entry_step _ _ _ _ _ _ _ p) eqn:Hp.
    + eapply Forall_impl; [|exact (IH _ H)].
      intros s (e & He & Hs & Hk); exists e; auto.
    + destruct (scan _ _ _ _ _ _ _ es) as [r|e] eqn:Hs; [|discriminate].
      injection H as <-; constructor; [exists p; auto|].
      eapply Forall_impl; [|exact (IH _ eq_refl)].
      intros s (e & He & Hs' & Hk); exists e; auto.
    + discriminate.
Qed.


(** Whatever the root and the other options, [dir_ls] with a
    [type_filter] other than ["any"] never returns a path: it returns an
    empty list or fails. *)
Theorem dir_ls_non_any_returns_nothing (path : Root) (all recurse : bool) (tf : string)
    (glob regexp : option string) (invert fail : bool) (res : list string) :
  tf <> "any" ->
  dir_ls glob_match re_search path all recurse tf glob regexp invert fail = Ok res ->
  res = [].
Proof.
  intros Htf; destruct path as [| |it rg]; simpl.
  - destruct fail; [discriminate|intros H; injection H as <-; reflexivity].
  - discriminate.
  - apply scan_not_any, Htf.
Qed.

End ListingProps.

Section ListingProps2.
Variable glob_match : string -> string -> bool.
Variable re_search : string -> string -> bool.

(** Without [all], no path [dir_ls] returns comes from an entry whose
    name starts with a dot, whatever the type filter and patterns. *)
Theorem dir_ls_hides_dot_entries (path : Root) (recurse : bool) (tf : string)
    (glob regexp : option string) (invert fail : bool) (res : list string) :
  dir_ls glob_match re_search path false recurse tf glob regexp invert fail = Ok res ->
  Forall (fun s => exists e, In e (enumeration path recurse) /\ path_str e = s /\
                     starts_with "." (name e) = false) res.
Proof.
  destruct path as [| |it rg]; simpl.
  - destruct fail; [discriminate|intros H; injection H as <-; constructor].
  - discriminate.
  - intros H; apply scan_kept in H.
    eapply Forall_impl; [|exact H].
    intros s (e & He & Hs & Hk); exists e; repeat split; auto.
    unfold entry_step in Hk; simpl in Hk.
    destruct (starts_with "." (name e)); [discriminate|reflexivity].
Qed.

(** [path_filter] keeps an order-preserving subsequence of its input;
    with no active pattern it returns the input unchanged, even when
    [invert] is set. *)
Theorem path_filter_subseq (paths : list string) (glob regexp : option string) (invert : bool) :
  subseq (path_filter glob_match re_search paths glob regexp invert) paths /\
  (truthy glob = None -> truthy regexp = None ->
   path_filter glob_match re_search paths glob regexp invert = paths).
Proof.
  unfold path_filter; split.
  - induction paths as [|p ps IH]; simpl; [constructor|].
    destruct (path_match _ _ _ _ _ p); constructor; exact IH.
  - intros Hg Hr.
    assert (Hm : forall p, path_match glob_match re_search glob regexp invert p = true)
      by (intros p; unfold path_match; rewrite Hg, Hr; reflexivity).
    induction paths as [|p ps IH]; simpl; [reflexivity|rewrite Hm, IH; reflexivity].
Qed.

(** With at least one active pattern, [invert] complements
    [path_filter]: a path of the input is kept with [invert=True]
    exactly when it is dropped with [invert=False]. *)
Theorem path_filter_invert_complements (paths : list string) (glob regexp : option string)
    (p : string) :
  (truthy glob <> None \/ truthy regexp <> None) -> In p paths ->
  (In p (path_filter glob_match re_search paths glob regexp true) <->
   ~ In p (path_filter glob_match re_search paths glob regexp false)).
Proof.
  intros Hact Hin.
  assert (Hm : path_match glob_match re_search glob regexp true p =
               negb (path_match glob_match re_search glob regexp false p)).
  { unfold path_match.
    destruct (truthy regexp) as [r|]; [destruct (re_search r p); reflexivity|].
    destruct (truthy glob) as [g|]; [destruct (glob_match g p); reflexivity|].
    destruct Hact; contradiction. }
  unfold path_filter; rewrite !filter_In, Hm.
  destruct (path_match _ _ _ _ false p); simpl; intuition discriminate.
Qed.


Lemma fold_append_calls (paths acc : list string) :
  fold_left (fun calls p => (calls ++ [p])%list) paths acc = (acc ++ paths)%list.
Proof.
  revert acc; induction paths as [|p ps IH]; intros acc; simpl.
  - rewrite app_nil_r; reflexivity.
  - rewrite IH, <- app_assoc; reflexivity.
Qed.

(** [dir_walk] with a [type_filter] other than ["any"] never calls
    [fun] on any path. *)
Theorem dir_walk_non_any_calls_nothing (path : Root) (all recurse : bool) (tf : string)
    (fail : bool) (calls : list string) :
  tf <> "any" ->
  dir_walk glob_match re_search path all recurse tf fail = Ok calls -> calls = [].
Proof.
  intros Htf; unfold dir_walk.
  destruct (dir_ls _ _ _ _ _ _ _ _ _ _) as [paths|e] eqn:Hd; [|discriminate].
  intros H; injection H as <-.
  destruct path as [| |it rg]; simpl in Hd.
  - destruct fail; [discriminate|injection Hd as <-; reflexivity].
  - discriminate.
  - rewrite (scan_not_any _ _ _ _ _ _ _ _ _ Htf Hd); reflexivity.
Qed.
End ListingProps2.

Lemma dir_ls_non_any_returns_nothing_witness :
  ("file" <> "any" /\
   dir_ls match_all match_all (RootDir [sub_e] [sub_e]) false false "file" None None false true
   = Ok []) /\ @nil string = [].
Proof.
  split; [split; [discriminate|reflexivity]|].
  apply (dir_ls_non_any_returns_nothing match_all match_all (RootDir [sub_e] [sub_e])
           false false "file" None None false true []); [discriminate|reflexivity].
Defined.

Lemma dir_ls_hides_dot_entries_witness :
  dir_ls match_all match_all (RootDir [hidden_e; a_txt; sub_e] [hidden_e; a_txt; sub_e])
         false false "any" None None false true = Ok ["d/a.txt"; "d/sub"] /\
  Forall (fun s => exists e, In e (enumeration (RootDir [hidden_e; a_txt; sub_e]
                                                        [hidden_e; a_txt; sub_e]) false) /\
                             path_str e = s /\ starts_with "." (name e) = false)
         ["d/a.txt"; "d/sub"].
Proof.
  split; [reflexivity|].
  apply (dir_ls_hides_dot_entries match_all match_all
           (RootDir [hidden_e; a_txt; sub_e] [hidden_e; a_txt; sub_e])
           false "any" None None false true); reflexivity.
Defined.

Lemma path_filter_subseq_witness :
  (truthy None = None /\ truthy (Some EmptyString) = None) /\
  path_filter exact_match exact_match ["x"; "y"] None (Some EmptyString) true = ["x"; "y"].
Proof.
  split; [split; reflexivity|].
  apply (proj2 (path_filter_subseq exact_match exact_match ["x"; "y"] None (Some EmptyString) true));
    reflexivity.
Defined.

Lemma path_filter_invert_complements_witness :
  ((truthy (Some "d/a.txt") <> None \/ truthy None <> None) /\ In "d/b.txt" ["d/a.txt"; "d/b.txt"]) /\
  (In "d/b.txt" (path_filter exact_match exact_match ["d/a.txt"; "d/b.txt"] (Some "d/a.txt") None true) <->
   ~ In "d/b.txt" (path_filter exact_match exact_match ["d/a.txt"; "d/b.txt"] (Some "d/a.txt") None false)).
Proof.
  split; [split; [left; discriminate|right; left; reflexivity]|].
  apply path_filter_invert_complements; [left; discriminate|right; left; reflexivity].
Defined.

Lemma dir_walk_non_any_calls_nothing_witness :
  ("directory" <> "any" /\
   dir_walk match_all match_all (RootDir [a_txt] [a_txt]) false false "directory" true = Ok []) /\
  @nil string = [].
Proof.
  split; [split; [discriminate|reflexivity]|].
  apply (dir_walk_non_any_calls_nothing match_all match_all (RootDir [a_txt] [a_txt])
           false false "directory" true []); [discriminate|reflexivity].
Defined.

(* ================================================================== *)
(** * Properties of [file_access] *)

Lemma split_ws_all_space (mode : string) : all_space mode = true -> split_ws mode = [].
Proof.
  induction mode as [|c s IH]; simpl; [reflexivity|].
  unfold all_space; simpl; intros H; apply andb_true_iff in H as [Hc Hs].
  rewrite Hc; apply IH, Hs.
Qed.

(** A mode string with no word (empty or only whitespace) makes
    [file_access] return [True] without checking anything, so even for
    a path that does not exist. *)
Theorem file_access_no_word_is_true (access : Z -> bool) (mode : string) :
  all_space mode = true -> file_access access mode = Some true.
Proof.
  intros H; unfold file_access; rewrite split_ws_all_space by exact H; reflexivity.
Qed.

Lemma file_access_no_word_is_true_witness :
  all_space "  " = true /\ file_access (fun _ => false) "  " = Some true.
Proof. split; [reflexivity|apply file_access_no_word_is_true; reflexivity]. Defined.

Lemma collect_modes_none (ws : list string) :
  collect_modes ws = None <-> Exists (fun w => mode_map w = None) ws.
Proof.
  induction ws as [|w ws IH]; simpl.
  - split; [discriminate|intros H; inversion H].
  - rewrite Exists_cons; destruct (mode_map w) as [m|] eqn:Hw.
    + destruct (collect_modes ws); rewrite <- IH; split;
        [discriminate|intros [H|H]; discriminate|intros _; right; reflexivity|auto].
    + split; [intros _; left; reflexivity|reflexivity].
Qed.

(** [file_access] raises [ValueError] exactly when some whitespace-separated
    word of the mode is not one of [exists], [read], [write], [execute],
    whatever the file system says; otherwise it returns whether
    [os.access] grants every listed mode. *)
Theorem file_access_validation (access : Z -> bool) (mode : string) :
  (file_access access mode = None <-> Exists (fun w => mode_map w = None) (split_ws mode)) /\
  (forall modes, collect_modes (split_ws mode) = Some modes ->
                 file_access access mode = Some (forallb access modes)).
Proof.
  unfold file_access; split.
  - rewrite <- collect_modes_none.
    destruct (collect_modes (split_ws mode)); split; congruence.
  - intros modes H; rewrite H; reflexivity.
Qed.

Lemma file_access_validation_witness :
  collect_modes (split_ws " read  write ") = Some [R_OK; W_OK] /\
  file_access (fun m => Z.eqb m R_OK) " read  write " = Some (forallb (fun m => Z.eqb m R_OK) [R_OK; W_OK]).
Proof.
  split; [reflexivity|].
  apply (proj2 (file_access_validation (fun m => Z.eqb m R_OK) " read  write ")); reflexivity.
Defined.

(* ================================================================== *)
(** * Properties of the temporary-files stack *)

Lemma file_temp_pop_app (st : Stack) (x : string) :
  file_temp_pop (st ++ [x])%list = (st, Some x).
Proof.
  unfold file_temp_pop.
  destruct (st ++ [x])%list eqn:E; [destruct st; discriminate|].
  rewrite <- E, removelast_last, last_last; reflexivity.
Qed.

(** [file_temp_pop] undoes [file_temp_push]: it returns the pushed
    [Path(path)] and restores the stack; on an empty stack it returns
    [None] and leaves the stack empty. *)
Theorem temp_push_pop (to_path : string -> string) (st : Stack) (path : string) :
  snd (file_temp_push to_path st path) = to_path path /\
  file_temp_pop (fst (file_temp_push to_path st path)) = (st, Some (to_path path)) /\
  file_temp_pop [] = ([], None).
Proof.
  split; [reflexivity|split; [|reflexivity]].
  apply file_temp_pop_app.
Qed.

Lemma cleanup_loop_drains (FS : Type) (delete_path : FS -> string -> FS) (n : nat) :
  forall (st : Stack) (fs : FS) (popped : list string),
  length st = n ->
  exists fs', cleanup_loop FS delete_path n st fs popped = ([], fs', (popped ++ rev st)%list).
Proof.
  induction n as [|n IH]; intros st fs popped Hlen.
  - destruct st; [|discriminate]; exists fs; simpl; rewrite app_nil_r; reflexivity.
  - destruct (exists_last (l := st)) as (st0 & x & ->);
      [intros ->; discriminate|].
    rewrite length_app in Hlen; simpl in Hlen.
    simpl; rewrite file_temp_pop_app.
    destruct (IH st0 (delete_path fs x) (popped ++ [x])%list ltac:(lia)) as [fs' Hf].
    exists fs'; rewrite Hf, rev_app_distr, <- app_assoc; reflexivity.
Qed.

(** [cleanup_temp_files] always empties the stack and tries each stacked
    path exactly once, most recently pushed first, whatever the deletions
    do (their errors are only printed). *)
Theorem cleanup_drains_lifo (FS : Type) (delete_path : FS -> string -> FS)
    (st : Stack) (fs : FS) :
  exists fs', cleanup_temp_files FS delete_path st fs = ([], fs', rev st).
Proof.
  unfold cleanup_temp_files.
  exact (cleanup_loop_drains FS delete_path _ st fs [] eq_refl).
Qed.

(* ================================================================== *)
(** * Properties of [path_sanitize] *)

Lemma all_allowed_app (x y : string) : all_allowed (x ++ y) = all_allowed x && all_allowed y.
Proof.
  unfold all_allowed; induction x as [|c x IH]; simpl; [reflexivity|].
  rewrite IH, andb_assoc; reflexivity.
Qed.

Lemma sub_invalid_allowed (r s : string) :
  all_allowed r = true -> all_allowed (sub_invalid r s) = true.
Proof.
  intros Hr; induction s as [|c s IH]; [reflexivity|]; simpl.
  rewrite all_allowed_app, IH, andb_true_r.
  destruct (allowed c) eqn:Hc; [unfold all_allowed; simpl; rewrite Hc|]; [reflexivity|exact Hr].
Qed.

Lemma flush_dots_allowed (r : string) (n : nat) :
  all_allowed r = true -> all_allowed (flush_dots r n) = true.
Proof. intros Hr; destruct n as [|[|n]]; [reflexivity|reflexivity|exact Hr]. Qed.

Lemma flush_dots_empty (n : nat) :
  flush_dots EmptyString n = EmptyString \/ flush_dots EmptyString n = ".".
Proof. destruct n as [|[|n]]; simpl; auto. Qed.

Lemma sub_dots_aux_allowed (r : string) (n : nat) (s : string) :
  all_allowed r = true -> all_allowed s = true -> all_allowed (sub_dots_aux r n s) = true.
Proof.
  intros Hr; revert n; induction s as [|c s IH]; intros n H; simpl.
  - apply flush_dots_allowed, Hr.
  - unfold all_allowed in H; simpl in H; apply andb_true_iff in H as [Hc Hs].
    destruct (Ascii.eqb c "."); [apply IH, Hs|].
    rewrite all_allowed_app, flush_dots_allowed by exact Hr.
    unfold all_allowed at 1; simpl; rewrite Hc; simpl; apply IH, Hs.
Qed.

Lemma no_double_dot_cons (c : ascii) (x : string) :
  Ascii.eqb c "." = false -> no_double_dot (String c x) = no_double_dot x.
Proof. intros Hc; destruct x as [|b x]; simpl; [reflexivity|rewrite Hc; reflexivity]. Qed.

Lemma sub_dots_aux_no_double_dot (n : nat) (s : string) :
  no_double_dot (sub_dots_aux EmptyString n s) = true.
Proof.
  revert n; induction s as [|c s IH]; intros n; cbn [sub_dots_aux].
  - destruct (flush_dots_empty n) as [-> | ->]; reflexivity.
  - destruct (Ascii.eqb c ".") eqn:Hc; [apply IH|].
    pose proof (IH O) as HX; revert HX.
    generalize (sub_dots_aux EmptyString O s) as X; intros X HX.
    destruct (flush_dots_empty n) as [-> | ->]; simpl;
      destruct X as [|b X]; rewrite ?Hc; simpl; auto.
Qed.

Lemma substring_allowed (k : nat) (s : string) :
  all_allowed s = true -> all_allowed (substring 0 k s) = true.
Proof.
  revert k; induction s as [|c s IH]; intros k H; destruct k; simpl; try reflexivity.
  unfold all_allowed in *; simpl in *; apply andb_true_iff in H as [Hc Hs].
  rewrite Hc; apply IH, Hs.
Qed.

Lemma substring_no_double_dot (k : nat) (s : string) :
  no_double_dot s = true -> no_double_dot (substring 0 k s) = true.
Proof.
  revert k; induction s as [|a s IH]; intros k H; destruct k as [|k]; try reflexivity.
  cbn [substring]; destruct s as [|b s]; [destruct k; reflexivity|].
  cbn [no_double_dot] in H; apply andb_true_iff in H as [Hab Hs].
  specialize (IH k Hs).
  destruct k as [|k]; [reflexivity|].
  cbn [substring] in *; cbn [no_double_dot]; rewrite Hab; exact IH.
Qed.

Lemma substring_length_le (k : nat) (s : string) : (String.length (substring 0 k s) <= k)%nat.
Proof.
  revert k; induction s as [|c s IH]; intros k; destruct k; simpl; try lia.
  specialize (IH k); lia.
Qed.

Lemma substring_full (k : nat) (s : string) :
  (String.length s <= k)%nat -> substring 0 k s = s.
Proof.
  revert k; induction s as [|c s IH]; intros k H; destruct k; simpl in *; try reflexivity; try lia.
  rewrite IH by lia; reflexivity.
Qed.

Lemma substring_length_eq (k : nat) (s : string) :
  (k <= String.length s)%nat -> String.length (substring 0 k s) = k.
Proof.
  revert k; induction s as [|c s IH]; intros k H; destruct k; simpl in *; try reflexivity; try lia.
  rewrite IH by lia; reflexivity.
Qed.

Lemma upper_length (s : string) : String.length (upper s) = String.length s.
Proof. induction s as [|c s IH]; simpl; [reflexivity|now rewrite IH]. Qed.

Lemma reserved_short (x : string) : is_reserved x = true -> (String.length x <= 4)%nat.
Proof.
  unfold is_reserved; intros H; apply existsb_exists in H as (r & Hin & Heq).
  apply String.eqb_eq in Heq; subst r.
  simpl in Hin; repeat (destruct Hin as [<-|Hin]; [simpl; lia|]); contradiction.
Qed.

Lemma sub_invalid_id (s : string) : all_allowed s = true -> sub_invalid EmptyString s = s.
Proof.
  induction s as [|c s IH]; intros H; [reflexivity|].
  unfold all_allowed in H; simpl in H; apply andb_true_iff in H as [Hc Hs].
  simpl; rewrite Hc; simpl; rewrite IH by exact Hs; reflexivity.
Qed.

Lemma sub_dots_aux_id (s : string) :
  (no_double_dot s = true -> sub_dots_aux EmptyString O s = s) /\
  (no_double_dot (String "." s) = true -> sub_dots_aux EmptyString 1 s = String "." s).
Proof.
  induction s as [|c s [IH0 IH1]]; [split; reflexivity|].
  destruct (Ascii.eqb c ".") eqn:Hc.
  - apply Ascii.eqb_eq in Hc; subst c; split; intros H.
    + cbn [sub_dots_aux]; rewrite IH1 by exact H; reflexivity.
    + discriminate H.
  - split; intros H.
    + cbn [sub_dots_aux]; rewrite Hc, IH0; [reflexivity|].
      rewrite no_double_dot_cons in H by exact Hc; exact H.
    + cbn [sub_dots_aux]; rewrite Hc, IH0; [reflexivity|].
      change (negb (Ascii.eqb "." "." && Ascii.eqb c ".") && no_double_dot (String c s) = true) in H.
      rewrite Hc, no_double_dot_cons in H by exact Hc; exact H.
Qed.

Lemma path_sanitize_not_reserved (filename : string) :
  is_reserved (upper (path_sanitize filename EmptyString)) = false.
Proof.
  unfold path_sanitize.
  destruct (is_reserved (upper (sub_dots EmptyString (sub_invalid EmptyString filename)))) eqn:Hr;
    [reflexivity|].
  set (t := sub_dots EmptyString (sub_invalid EmptyString filename)) in *.
  destruct (Nat.leb (String.length t) 255) eqn:Hl.
  - apply Nat.leb_le in Hl; rewrite substring_full by exact Hl; exact Hr.
  - apply Nat.leb_gt in Hl.
    destruct (is_reserved (upper (substring 0 255 t))) eqn:Hs; [|reflexivity].
    apply reserved_short in Hs; rewrite upper_length, substring_length_eq in Hs; lia.
Qed.

(** [path_sanitize] with the default replacement [""] returns a name
    made of the characters [[a-zA-Z0-9_.-]] only, with no two
    consecutive dots, of at most 255 characters, and whose upper-case
    form is not one of the reserved device names. *)
Theorem path_sanitize_clean (filename : string) :
  let r := path_sanitize filename EmptyString in
  all_allowed r = true /\ no_double_dot r = true /\
  (String.length r <= 255)%nat /\ is_reserved (upper r) = false.
Proof.
  intros r; split; [|split; [|split]].
  - unfold r, path_sanitize; apply substring_allowed.
    destruct (is_reserved _); [reflexivity|].
    apply sub_dots_aux_allowed; [reflexivity|apply sub_invalid_allowed; reflexivity].
  - unfold r, path_sanitize; apply substring_no_double_dot.
    destruct (is_reserved _); [reflexivity|apply sub_dots_aux_no_double_dot].
  - apply substring_length_le.
  - apply path_sanitize_not_reserved.
Qed.

(** With a replacement made of allowed characters, every character of
    the result of [path_sanitize] is in [[a-zA-Z0-9_.-]]. *)
Theorem path_sanitize_allowed (filename replacement : string) :
  all_allowed replacement = true ->
  all_allowed (path_sanitize filename replacement) = true.
Proof.
  intros Hr; unfold path_sanitize; apply substring_allowed.
  destruct (is_reserved _); [exact Hr|].
  apply sub_dots_aux_allowed; [exact Hr|apply sub_invalid_allowed, Hr].
Qed.

Lemma path_sanitize_allowed_witness :
  all_allowed "_" = true /\ path_sanitize "a b..c" "_" = "a_b_c" /\
  all_allowed (path_sanitize "a b..c" "_") = true.
Proof.
  split; [reflexivity|split; [vm_compute; reflexivity|]].
  apply path_sanitize_allowed; reflexivity.
Defined.

(** [path_sanitize] with the default replacement [""] is idempotent: a
    name it has already sanitized comes back unchanged. *)
Theorem path_sanitize_idempotent (filename : string) :
  path_sanitize (path_sanitize filename EmptyString) EmptyString =
  path_sanitize filename EmptyString.
Proof.
  destruct (path_sanitize_clean filename) as (Ha & Hd & Hl & Hr).
  set (r := path_sanitize filename EmptyString) in *.
  unfold path_sanitize at 1; unfold sub_dots.
  rewrite sub_invalid_id by exact Ha.
  rewrite (proj1 (sub_dots_aux_id r)) by exact Hd.
  rewrite Hr; apply substring_full, Hl.
Qed.
